(** * PhotoPrint A4: layout engine and slot rasterizer

    A shallow embedding of [src/src/types.ts] and of the pure parts of
    [src/src/App.tsx]: [getTargetSize], [calculateLayout] (shelf packing
    plus horizontal centering) and the per-slot draw geometry computed
    inside [generatePDF] and [saveToPNG].

    JavaScript numbers are modelled by exact rationals [Q]; every
    arithmetic step of the source is written out as it appears there.
    Comparisons such as [a > b] become booleans through [Qltb]. *)

From Stdlib Require Import QArith Qabs Qminmax Qround Lqa.
From Stdlib Require Import String Ascii List Bool Arith Lia.
Import ListNotations.

Open Scope Q_scope.

(** ** Numeric helpers *)

(** [Qltb x y] is the JavaScript comparison [x < y]. *)
Definition Qltb (x y : Q) : bool := negb (Qle_bool y x).

(** [jsOrNum v d] is [v || d] for an optional number [v]:
    [undefined] and [0] are falsy. *)
Definition jsOrNum (v : option Q) (d : Q) : Q :=
  match v with
  | None => d
  | Some a => if Qeq_bool a 0 then d else a
  end.

(** [Math.round x] = [floor (x + 0.5)]. *)
Definition mathRound (x : Q) : Q := inject_Z (Qfloor (x + (1#2))).

(** ** Data model, [types.ts] *)

Record PhotoSize := mkPhotoSize {
  ps_id : string;
  ps_name : string;
  widthCm : Q;
  heightCm : Q
}.

(** The inch mark of the catalogue names. *)
Definition inchMark : string := String (Ascii.ascii_of_nat 34) EmptyString.

Definition STANDARD_SIZES : list PhotoSize := [
  mkPhotoSize "10x15" ("10x15 (4x6" ++ inchMark ++ ")") 10 15;
  mkPhotoSize "13x18" ("13x18 (5x7" ++ inchMark ++ ")") 13 18;
  mkPhotoSize "15x21" ("15x21 (6x8" ++ inchMark ++ ")") 15 21;
  mkPhotoSize "20x25" ("20x25 (8x10" ++ inchMark ++ ")") 20 25;
  mkPhotoSize "10x10" ("10x10 (4x4" ++ inchMark ++ ")") 10 10;
  mkPhotoSize "5x7" ("5x7 (2x3" ++ inchMark ++ ")") 5 7;
  mkPhotoSize "3x4" "3x4" 3 4
].

Definition A4_WIDTH_CM : Q := 21.
Definition A4_HEIGHT_CM : Q := 29.7.

(** An uploaded image: its pixel size is [0 x 0] until it has decoded. *)
Record ImageFile := mkImageFile {
  img_id : string;
  copies : nat;
  width : Q;
  height : Q
}.

Inductive CustomUnit := Ucm | Uinch | Upx.
Inductive Orientation := OAuto | OPortrait | OLandscape.
Inductive FitMode := Cover | Contain.

Record PrintSettings := mkPrintSettings {
  sizeId : string;
  customWidth : Q;
  customHeight : Q;
  customUnit : CustomUnit;
  hasBorder : bool;
  isPolaroid : bool;
  orientation : Orientation;
  spacing : Q;
  margin : Q;
  fitMode : FitMode
}.

(** ** [getTargetSize] *)

Definition findSize (sid : string) : option PhotoSize :=
  find (fun s => String.eqb (ps_id s) sid) STANDARD_SIZES.

Definition getTargetSize (settings : PrintSettings) : Q * Q :=
  if String.eqb (sizeId settings) "custom" then
    let w := customWidth settings in
    let h := customHeight settings in
    match customUnit settings with
    | Uinch => (w * 2.54, h * 2.54)
    | Upx => ((w * 2.54) / 300, (h * 2.54) / 300)
    | Ucm => (w, h)
    end
  else
    let size := findSize (sizeId settings) in
    (jsOrNum (option_map widthCm size) 10, jsOrNum (option_map heightCm size) 15).

(** ** [calculateLayout]: shelf packing *)

(** One entry of [page.images]: [{ img, x, y, w, h, isRotated }]. *)
Record Placed := mkPlaced {
  pl_img : ImageFile;
  pl_x : Q;
  pl_y : Q;
  pl_w : Q;
  pl_h : Q;
  isRotated : bool
}.

Definition Page := list Placed.

(** The per-copy orientation decision: the slot [(w, h)] and [isRotated]. *)
Definition orientSlot (o : Orientation) (tw th : Q) (img : ImageFile)
  : Q * Q * bool :=
  match o with
  | OAuto =>
      let imgIsLandscape := Qltb (height img) (width img) in
      let targetIsLandscape := Qltb th tw in
      if negb (Bool.eqb imgIsLandscape targetIsLandscape)
      then (th, tw, true) else (tw, th, false)
  | OLandscape => if Qltb tw th then (th, tw, true) else (tw, th, false)
  | OPortrait => if Qltb th tw then (th, tw, true) else (tw, th, false)
  end.

(** The mutable locals of the packing loop. *)
Record LayoutState := mkLayoutState {
  pages : list Page;
  currentImages : Page;
  currentX : Q;
  currentY : Q;
  rowHeight : Q
}.

Section Packing.
Variables pageWidth pageHeight margin spacing : Q.

(** [if (currentX + w > pageWidth - margin + 0.001) { ... }] *)
Definition wrapRow (st : LayoutState) (w : Q) : LayoutState :=
  if Qltb (pageWidth - margin + 0.001) (currentX st + w) then
    {| pages := pages st; currentImages := currentImages st;
       currentX := margin; currentY := currentY st + (rowHeight st + spacing);
       rowHeight := 0 |}
  else st.

(** [if (currentY + h > pageHeight - margin + 0.001) { pages.push(...); ... }] *)
Definition breakPage (st : LayoutState) (h : Q) : LayoutState :=
  if Qltb (pageHeight - margin + 0.001) (currentY st + h) then
    {| pages := pages st ++ [currentImages st]; currentImages := [];
       currentX := margin; currentY := margin; rowHeight := 0 |}
  else st.

(** [currentImages.push(...); currentX += w + spacing;
    rowHeight = Math.max(rowHeight, h)] *)
Definition placeItem (st : LayoutState) (img : ImageFile) (w h : Q) (rot : bool)
  : LayoutState :=
  {| pages := pages st;
     currentImages := currentImages st ++ [mkPlaced img (currentX st) (currentY st) w h rot];
     currentX := currentX st + (w + spacing);
     currentY := currentY st;
     rowHeight := Qmax (rowHeight st) h |}.

(** The body of [allItemsToPrint.forEach]. *)
Definition layoutStep (o : Orientation) (tw th : Q) (st : LayoutState)
  (img : ImageFile) : LayoutState :=
  let '(w, h, rot) := orientSlot o tw th img in
  placeItem (breakPage (wrapRow st w) h) img w h rot.

End Packing.

(** Copy-count fan-out: [for (let i = 0; i < img.copies; i++) push(img)]. *)
Definition allItemsToPrint (images : list ImageFile) : list ImageFile :=
  flat_map (fun img => repeat img (copies img)) images.

(** The pages before the centering pass. *)
Definition packPages (pageWidth pageHeight : Q) (settings : PrintSettings)
  (images : list ImageFile) : list Page :=
  let targetSize := getTargetSize settings in
  let m := margin settings in
  let s := spacing settings in
  let st0 := mkLayoutState [] [] m m 0 in
  let st := fold_left
              (layoutStep pageWidth pageHeight m s (orientation settings)
                 (fst targetSize) (snd targetSize))
              (allItemsToPrint images) st0 in
  if Nat.ltb 0 (length (currentImages st))
  then pages st ++ [currentImages st] else pages st.

(** ** [calculateLayout]: horizontal centering *)

(** [Math.min(...xs)] and [Math.max(...xs)]; only used on non-empty lists. *)
Definition listMin (l : list Q) : Q :=
  match l with [] => 0 | a :: r => fold_left Qmin r a end.
Definition listMax (l : list Q) : Q :=
  match l with [] => 0 | a :: r => fold_left Qmax r a end.

Definition shiftX (offsetX : Q) (i : Placed) : Placed :=
  {| pl_img := pl_img i; pl_x := pl_x i + offsetX; pl_y := pl_y i;
     pl_w := pl_w i; pl_h := pl_h i; isRotated := isRotated i |}.

Definition minX (page : Page) : Q := listMin (map pl_x page).
Definition maxX (page : Page) : Q := listMax (map (fun i => pl_x i + pl_w i) page).

Definition centerOffset (pageWidth : Q) (page : Page) : Q :=
  let contentWidth := maxX page - minX page in
  (pageWidth - contentWidth) / 2 - minX page.

Definition centerPage (pageWidth : Q) (page : Page) : Page :=
  match page with
  | [] => []
  | _ => map (shiftX (centerOffset pageWidth page)) page
  end.

Definition calculateLayout (settings : PrintSettings) (images : list ImageFile)
  : list Page :=
  map (centerPage A4_WIDTH_CM) (packPages A4_WIDTH_CM A4_HEIGHT_CM settings images).

(** ** Slot rasterization, shared by [generatePDF] and [saveToPNG] *)

Record Rect := mkRect { rx : Q; ry : Q; rw : Q; rh : Q }.

(** [shouldRotate]: slot and image lean to different sides of 1. *)
Definition shouldRotate (slotW slotH imgW imgH : Q) : bool :=
  let slotAspect := slotW / slotH in
  let imgAspect := imgW / imgH in
  (Qltb 1 slotAspect && Qltb imgAspect 1) || (Qltb slotAspect 1 && Qltb 1 imgAspect).

(** The drawing step after the optional rotation: [draw] is
    [(drawX, drawY, drawW, drawH)] with [drawW]/[drawH] already swapped when
    [rot] holds.  Returns the source crop passed to the 9-argument
    [ctx.drawImage] ([None] for the 5-argument call) and the destination. *)
(** [const currentImgAspect = shouldRotate ? h / w : w / h]. *)
Definition currentImgAspect (rot : bool) (imgW imgH : Q) : Q :=
  if rot then imgH / imgW else imgW / imgH.

Definition fitImage (fit : FitMode) (imgW imgH : Q) (rot : bool) (draw : Rect)
  : option Rect * Rect :=
  let currentImgAspect := currentImgAspect rot imgW imgH in
  let targetAspect := rw draw / rh draw in
  match fit with
  | Cover =>
      if Qltb targetAspect currentImgAspect then
        let sourceW := imgH * targetAspect in
        let sourceX := (imgW - sourceW) / 2 in
        (Some (mkRect sourceX 0 sourceW imgH), draw)
      else
        let sourceH := imgW / targetAspect in
        let sourceY := (imgH - sourceH) * 0.35 in
        (Some (mkRect 0 sourceY imgW sourceH), draw)
  | Contain =>
      if Qltb targetAspect currentImgAspect then
        let finalDrawH := rw draw / currentImgAspect in
        let finalDrawY := ry draw + (rh draw - finalDrawH) / 2 in
        (None, mkRect (rx draw) finalDrawY (rw draw) finalDrawH)
      else
        let finalDrawW := rh draw * currentImgAspect in
        let finalDrawX := rx draw + (rw draw - finalDrawW) / 2 in
        (None, mkRect finalDrawX (ry draw) finalDrawW (rh draw))
  end.

Record DrawGeom := mkDrawGeom {
  rotateSource : bool;
  cropRect : option Rect;
  destRect : Rect
}.

(** The swap [drawW <-> drawH] under [shouldRotate]. *)
Definition rotateDraw (rot : bool) (d : Rect) : Rect :=
  if rot then mkRect (rx d) (ry d) (rh d) (rw d) else d.

(** [generatePDF], per placed item of size [itemW x itemH] cm. *)
Definition pdfSlotGeometry (settings : PrintSettings) (itemW itemH imgW imgH : Q)
  : DrawGeom :=
  let rot := shouldRotate itemW itemH imgW imgH in
  let scale := 118.11 in
  let cw := mathRound (itemW * scale) in
  let ch := mathRound (itemH * scale) in
  let draw :=
    if hasBorder settings || isPolaroid settings then
      let borderSize := cw * 0.04 in
      let bottomExtra := if isPolaroid settings then ch * 0.12 else 0 in
      mkRect borderSize borderSize (cw - borderSize * 2) (ch - borderSize * 2 - bottomExtra)
    else mkRect 0 0 cw ch in
  let fitted := fitImage (fitMode settings) imgW imgH rot (rotateDraw rot draw) in
  mkDrawGeom rot (fst fitted) (snd fitted).

(** [saveToPNG], per copy, on a canvas of [finalW x finalH] pixels. *)
Definition pngSlotGeometry (settings : PrintSettings) (finalW finalH imgW imgH : Q)
  : DrawGeom :=
  let rot := shouldRotate finalW finalH imgW imgH in
  let draw :=
    if hasBorder settings || isPolaroid settings then
      let borderSize := mathRound (finalW * 0.04) in
      let bottomExtra := if isPolaroid settings then mathRound (finalH * 0.12) else 0 in
      mkRect borderSize borderSize (finalW - borderSize * 2)
        (finalH - borderSize * 2 - bottomExtra)
    else mkRect 0 0 finalW finalH in
  let fitted := fitImage (fitMode settings) imgW imgH rot (rotateDraw rot draw) in
  mkDrawGeom rot (fst fitted) (snd fitted).

(** ** Scenario inputs *)

(** The initial settings of the [App] component. *)
Definition defaultSettings : PrintSettings :=
  mkPrintSettings "10x15" 10 15 Ucm false false OAuto 0.2 0.3 Cover.

Definition unknownImage (id : string) : ImageFile := mkImageFile id 1 0 0.

Definition scenario1Images : list ImageFile :=
  [unknownImage "a"; unknownImage "b"; unknownImage "c"].

(** A custom size of 1000 x 1500 px. *)
Definition pxCustomSettings : PrintSettings :=
  mkPrintSettings "custom" 1000 1500 Upx false false OAuto 0.2 0.3 Cover.

(** A custom landscape slot of 15 x 10 cm. *)
Definition landscapeSettings : PrintSettings :=
  mkPrintSettings "custom" 15 10 Ucm false false OAuto 0.2 0.3 Cover.


(** A custom 15 x 10 cm slot printed in portrait. *)
Definition portraitSettings : PrintSettings :=
  mkPrintSettings "custom" 15 10 Ucm false false OPortrait 0.2 0.3 Cover.

(** ** Layout properties *)

(** Everything placed so far, sealed pages first. *)
Definition allPlaced (st : LayoutState) : list Placed :=
  concat (pages st) ++ currentImages st.

(** What a placed entry records about its source and its slot. *)
Definition placedTag (p : Placed) : ImageFile * (Q * Q * bool) :=
  (pl_img p, (pl_w p, pl_h p, isRotated p)).

(** The effective slot of one copy under [settings]. *)
Definition effectiveSlot (settings : PrintSettings) (img : ImageFile) : Q * Q * bool :=
  orientSlot (orientation settings)
    (fst (getTargetSize settings)) (snd (getTargetSize settings)) img.

(** Two placed rectangles have disjoint interiors. *)
Definition disjoint (p q : Placed) : Prop :=
  pl_x p + pl_w p <= pl_x q \/ pl_x q + pl_w q <= pl_x p \/
  pl_y p + pl_h p <= pl_y q \/ pl_y q + pl_h q <= pl_y p.

(** The bounds the packing loop guarantees, before centering. *)
Definition packedBounds (pw ph m : Q) (p : Placed) : Prop :=
  m <= pl_x p /\ pl_x p + pl_w p <= pw - m + 0.001 /\
  m <= pl_y p /\ pl_y p + pl_h p <= ph - m + 0.001.

Definition goodPage (pw ph m : Q) (pg : Page) : Prop :=
  Forall (packedBounds pw ph m) pg /\ ForallOrdPairs disjoint pg.

(** An entry of the open page lies above the current row, or in it left of
    the cursor and no taller than [rowHeight]. *)
Definition behindCursor (st : LayoutState) (p : Placed) : Prop :=
  pl_y p + pl_h p <= currentY st \/
  (pl_y p == currentY st /\ pl_x p + pl_w p <= currentX st /\ pl_h p <= rowHeight st).

Definition packInv (pw ph m : Q) (st : LayoutState) : Prop :=
  Forall (goodPage pw ph m) (pages st) /\ goodPage pw ph m (currentImages st) /\
  Forall (behindCursor st) (currentImages st) /\
  m <= currentX st /\ m <= currentY st /\ 0 <= rowHeight st.

(** A slot that fits the printable area. *)
Definition slotFits (pw ph m : Q) (e : Q * Q * bool) : Prop :=
  0 <= fst (fst e) /\ fst (fst e) <= pw - 2 * m /\
  0 <= snd (fst e) /\ snd (fst e) <= ph - 2 * m.

(** ** Unit helpers, [types.ts] *)


(** ** The image list of the [App] component *)

(** An entry created by [handleFileUpload]: one copy, size not yet known.
    The random [id] is taken as given. *)
Definition newImageFile (id : string) : ImageFile := mkImageFile id 1 0 0.

(** [handleFileUpload]: [None] when [e.target.files] is null. *)
Definition handleFileUpload (files : option (list string)) (prev : list ImageFile)
  : list ImageFile :=
  match files with
  | None => prev
  | Some ids => prev ++ map newImageFile ids
  end.

(** The [onload] updater: [p.id === img.id ? { ...p, width, height } : p]. *)
Definition setImageSize (id : string) (w h : Q) (prev : list ImageFile)
  : list ImageFile :=
  map (fun p => if String.eqb (img_id p) id
                then mkImageFile (img_id p) (copies p) w h else p) prev.

(** [removeImage]: [prev.filter(i => i.id !== id)]. *)
Definition removeImage (id : string) (prev : list ImageFile) : list ImageFile :=
  filter (fun i => negb (String.eqb (img_id i) id)) prev.

(** [updateCopies] with an integer [delta]:
    [copies: Math.max(1, img.copies + delta)]. *)
Definition updateCopies (id : string) (delta : Z) (prev : list ImageFile)
  : list ImageFile :=
  map (fun img => if String.eqb (img_id img) id
                  then mkImageFile (img_id img)
                         (Z.to_nat (Z.max 1 (Z.of_nat (copies img) + delta)))
                         (width img) (height img)
                  else img) prev.

(** The [useEffect] that keeps [previewPage] in range: the value of
    [previewPage] after it ran with [pages.length = n]. *)
Definition previewPageAfterEffect (previewPage n : nat) : nat :=
  if Nat.leb n previewPage && Nat.ltb 0 n then n - 1
  else if Nat.eqb n 0 then 0
  else previewPage.

(** ** [saveToPNG]: canvas size of one copy *)

Definition orientationEqb (a b : Orientation) : bool :=
  match a, b with
  | OAuto, OAuto | OPortrait, OPortrait | OLandscape, OLandscape => true
  | _, _ => false
  end.

Definition pngCanvasSize (settings : PrintSettings) (img : ImageFile) : Q * Q :=
  let targetSize := getTargetSize settings in
  let dpi := 300 in
  let pxW := mathRound ((fst targetSize / 2.54) * dpi) in
  let pxH := mathRound ((snd targetSize / 2.54) * dpi) in
  let isImgLandscape := Qltb (height img) (width img) in
  let o := orientation settings in
  if orientationEqb o OLandscape || (orientationEqb o OAuto && isImgLandscape) then
    (if Qltb pxW pxH then (pxH, pxW) else (pxW, pxH))
  else if orientationEqb o OPortrait || (orientationEqb o OAuto && negb isImgLandscape) then
    (if Qltb pxH pxW then (pxH, pxW) else (pxW, pxH))
  else (pxW, pxH).

(** ** The canvas transform of a rotated draw *)

(** [ctx.translate(cx, cy); ctx.rotate(Math.PI / 2); ctx.translate(-cx, -cy)]
    about the centre of the usable rectangle [u] (taken before the swap),
    as an exact quarter turn: a point [p] of the drawing maps to
    [c + R (p - c)] with [R (x, y) = (-y, x)]. *)
Definition ctxQuarterTurn (u : Rect) (p : Q * Q) : Q * Q :=
  let cx := rx u + rw u / 2 in
  let cy := ry u + rh u / 2 in
  (cx - (snd p - cy), cy + (fst p - cx)).

(** Canvas coordinates of a point drawn while [shouldRotate] is [rot]. *)
Definition toCanvas (rot : bool) (u : Rect) (p : Q * Q) : Q * Q :=
  if rot then ctxQuarterTurn u p else p.

Definition rectCentre (r : Rect) : Q * Q := (rx r + rw r / 2, ry r + rh r / 2).

(** ** Arithmetic lemmas on [Q] *)

Lemma Qltb_iff (x y : Q) : Qltb x y = true <-> x < y.
Proof.
  unfold Qltb. rewrite negb_true_iff. split.
  - intro H. apply Qnot_le_lt. intro H'. apply Qle_bool_iff in H'. congruence.
  - intro H. destruct (Qle_bool y x) eqn:E; [|reflexivity].
    apply Qle_bool_iff in E. exfalso. apply (Qlt_not_le x y); assumption.
Qed.

Lemma Qltb_false (x y : Q) : Qltb x y = false <-> y <= x.
Proof.
  unfold Qltb. rewrite negb_false_iff. apply Qle_bool_iff.
Qed.

Lemma Qltb_ext (x y u v : Q) : (x < y <-> u < v) -> Qltb x y = Qltb u v.
Proof.
  intro H. destruct (Qltb u v) eqn:E.
  - apply Qltb_iff. apply H. apply Qltb_iff. exact E.
  - apply Qltb_false. apply Qltb_false in E.
    apply Qnot_lt_le. intro Hc. apply H in Hc. apply (Qlt_not_le u v Hc E).
Qed.

Lemma Qdiv_pos (a b : Q) : 0 < a -> 0 < b -> 0 < a / b.
Proof.
  intros Ha Hb. apply Qlt_shift_div_l; [exact Hb|]. lra.
Qed.

Lemma Qdiv_lt_iff (a b c : Q) : 0 < b -> (a / b < c <-> a < c * b).
Proof.
  intro Hb. split; intro H.
  - apply (Qmult_lt_r _ _ b) in H; [|exact Hb].
    setoid_replace (a / b * b) with a in H by (field; lra). exact H.
  - apply Qlt_shift_div_r; assumption.
Qed.

Lemma Qlt_div_iff (a b c : Q) : 0 < c -> (a < b / c <-> a * c < b).
Proof.
  intro Hc. split; intro H.
  - apply (Qmult_lt_r _ _ c) in H; [|exact Hc].
    setoid_replace (b / c * c) with b in H by (field; lra). exact H.
  - apply Qlt_shift_div_l; assumption.
Qed.

Lemma Qle_div_iff (a b c : Q) : 0 < c -> (a <= b / c <-> a * c <= b).
Proof.
  intro Hc. split; intro H.
  - apply (Qmult_le_r _ _ c) in H; [|exact Hc].
    setoid_replace (b / c * c) with b in H by (field; lra). exact H.
  - apply Qle_shift_div_l; assumption.
Qed.

(** [1 < a / b] exactly when [b < a], and [b / a < 1] likewise. *)
Lemma one_lt_div (a b : Q) : 0 < b -> (1 < a / b <-> b < a).
Proof.
  intro Hb. rewrite Qlt_div_iff by exact Hb. split; lra.
Qed.

Lemma div_lt_one (a b : Q) : 0 < b -> (a / b < 1 <-> a < b).
Proof.
  intro Hb. rewrite Qdiv_lt_iff by exact Hb. split; lra.
Qed.

Lemma currentImgAspect_pos (rot : bool) (imgW imgH : Q) :
  0 < imgW -> 0 < imgH -> 0 < currentImgAspect rot imgW imgH.
Proof.
  intros Hw Hh. destruct rot; apply Qdiv_pos; assumption.
Qed.

Lemma Qdiv2 (x : Q) : x / 2 == x * (1 # 2).
Proof. reflexivity. Qed.

(** ** Target size resolution *)

Lemma findSize_none (l : list PhotoSize) (sid : string) :
  ~ In sid (map ps_id l) ->
  find (fun s => String.eqb (ps_id s) sid) l = None.
Proof.
  induction l as [|s l IH]; intro Hn; [reflexivity|].
  simpl in *. destruct (String.eqb (ps_id s) sid) eqn:E.
  - apply String.eqb_eq in E. exfalso. apply Hn. left. exact E.
  - apply IH. intro Hi. apply Hn. right. exact Hi.
Qed.

(** C9: a custom size is converted from its unit: cm unchanged, inch
    times 2.54, px times 2.54 / 300 (300 DPI); 1000 x 1500 px resolves to
    (1000 * 2.54 / 300, 1500 * 2.54 / 300), about (8.467, 12.7) cm. *)
Theorem getTargetSize_custom (settings : PrintSettings) :
  sizeId settings = "custom"%string ->
  getTargetSize settings =
    match customUnit settings with
    | Ucm => (customWidth settings, customHeight settings)
    | Uinch => (customWidth settings * 2.54, customHeight settings * 2.54)
    | Upx => (customWidth settings * 2.54 / 300, customHeight settings * 2.54 / 300)
    end /\
  (customUnit settings = Upx -> customWidth settings = 1000 ->
   customHeight settings = 1500 ->
   fst (getTargetSize settings) == 1000 * 2.54 / 300 /\
   snd (getTargetSize settings) == 1500 * 2.54 / 300 /\
   Qabs (fst (getTargetSize settings) - 8.467) < 0.001 /\
   snd (getTargetSize settings) == 12.7).
Proof.
  intro Hc. unfold getTargetSize. rewrite Hc. simpl.
  split; [destruct (customUnit settings); reflexivity|].
  intros Hu Hw Hh. rewrite Hu, Hw, Hh. simpl.
  repeat split; reflexivity.
Qed.

(** C10: an unknown, non-custom [sizeId] falls back to 10 x 15 cm. *)
Theorem getTargetSize_unknown_id (settings : PrintSettings) :
  sizeId settings <> "custom"%string ->
  ~ In (sizeId settings) (map ps_id STANDARD_SIZES) ->
  getTargetSize settings = (10, 15).
Proof.
  intros Hc Hn. unfold getTargetSize.
  destruct (String.eqb (sizeId settings) "custom") eqn:E.
  - apply String.eqb_eq in E. contradiction.
  - unfold findSize. rewrite (findSize_none _ _ Hn). reflexivity.
Qed.

(** ** Rotation decision *)

(** C5, as stated: flipping both slot and source changes the decision.
    Refuted at slot 10 x 15 and source 4000 x 3000. *)
Lemma shouldRotate_flip_changes_refuted :
  ~ (forall slotW slotH imgW imgH : Q,
       shouldRotate slotW slotH imgW imgH <> shouldRotate slotH slotW imgH imgW).
Proof.
  intro H. apply (H 10 15 4000 3000). reflexivity.
Qed.

(** C5, amended: for positive sizes, flipping both the slot and the source
    leaves the rotation decision unchanged. *)
Theorem shouldRotate_flip_invariant (slotW slotH imgW imgH : Q) :
  0 < slotW -> 0 < slotH -> 0 < imgW -> 0 < imgH ->
  shouldRotate slotW slotH imgW imgH = shouldRotate slotH slotW imgH imgW.
Proof.
  intros Hsw Hsh Hiw Hih. unfold shouldRotate.
  rewrite (Qltb_ext 1 (slotW / slotH) (slotH / slotW) 1)
    by (rewrite one_lt_div, div_lt_one by assumption; tauto).
  rewrite (Qltb_ext (imgW / imgH) 1 1 (imgH / imgW))
    by (rewrite one_lt_div, div_lt_one by assumption; tauto).
  rewrite (Qltb_ext (slotW / slotH) 1 1 (slotH / slotW))
    by (rewrite one_lt_div, div_lt_one by assumption; tauto).
  rewrite (Qltb_ext 1 (imgW / imgH) (imgH / imgW) 1)
    by (rewrite one_lt_div, div_lt_one by assumption; tauto).
  destruct (Qltb 1 (slotH / slotW)), (Qltb (slotH / slotW) 1),
    (Qltb 1 (imgH / imgW)), (Qltb (imgH / imgW) 1); reflexivity.
Qed.

Lemma shouldRotate_flip_invariant_witness :
  (0 < 10 /\ 0 < 15 /\ 0 < 4000 /\ 0 < 3000) /\
  shouldRotate 10 15 4000 3000 = shouldRotate 15 10 3000 4000.
Proof.
  split; [repeat split; reflexivity|].
  apply shouldRotate_flip_invariant; reflexivity.
Defined.

(** ** Cover and contain *)

(** C6: in cover mode the crop has the destination's aspect ratio; the
    destination is the whole usable rectangle; a relatively wider source
    keeps its full height and is cropped centred horizontally, otherwise it
    keeps its full width and is cropped with 35% of the excess above. *)
Theorem fitImage_cover (imgW imgH : Q) (rot : bool) (d : Rect) :
  0 < imgW -> 0 < imgH -> 0 < rw d -> 0 < rh d ->
  exists c : Rect,
    fitImage Cover imgW imgH rot d = (Some c, d) /\
    rw c / rh c == rw d / rh d /\
    (rw d / rh d < currentImgAspect rot imgW imgH ->
       ry c == 0 /\ rh c == imgH /\ rw c == imgH * (rw d / rh d) /\
       rx c == (imgW - rw c) / 2) /\
    (currentImgAspect rot imgW imgH <= rw d / rh d ->
       rx c == 0 /\ rw c == imgW /\ rh c == imgW / (rw d / rh d) /\
       ry c == (imgH - rh c) * 0.35).
Proof.
  intros Hw Hh Hdw Hdh. unfold fitImage.
  destruct (Qltb (rw d / rh d) (currentImgAspect rot imgW imgH)) eqn:E.
  - apply Qltb_iff in E. eexists. split; [reflexivity|]. simpl.
    split; [field; lra|]. split.
    + intros _. repeat split; reflexivity.
    + intro Hle. exfalso. apply (Qlt_not_le _ _ E Hle).
  - apply Qltb_false in E. eexists. split; [reflexivity|]. simpl.
    split; [field; repeat split; lra|]. split.
    + intro Hlt. exfalso. apply (Qlt_not_le _ _ Hlt E).
    + intros _. repeat split; reflexivity.
Qed.

Lemma fitImage_cover_witness :
  (0 < 4000 /\ 0 < 3000 /\ 0 < rw (mkRect 0 0 1181 1772) /\ 0 < rh (mkRect 0 0 1181 1772)) /\
  exists c : Rect,
    fitImage Cover 4000 3000 false (mkRect 0 0 1181 1772) = (Some c, mkRect 0 0 1181 1772) /\
    rw c / rh c == 1181 / 1772 /\
    (1181 / 1772 < currentImgAspect false 4000 3000 ->
       ry c == 0 /\ rh c == 3000 /\ rw c == 3000 * (1181 / 1772) /\
       rx c == (4000 - rw c) / 2) /\
    (currentImgAspect false 4000 3000 <= 1181 / 1772 ->
       rx c == 0 /\ rw c == 4000 /\ rh c == 4000 / (1181 / 1772) /\
       ry c == (3000 - rh c) * 0.35).
Proof.
  split; [repeat split; reflexivity|].
  apply (fitImage_cover 4000 3000 false (mkRect 0 0 1181 1772)); reflexivity.
Defined.

(** C7: in contain mode there is no crop; the drawn rectangle has the
    source's (possibly rotated) aspect ratio, lies inside the usable
    rectangle, fills it along one axis and is centred along the other. *)
Theorem fitImage_contain (imgW imgH : Q) (rot : bool) (d : Rect) :
  0 < imgW -> 0 < imgH -> 0 < rw d -> 0 < rh d ->
  exists r : Rect,
    fitImage Contain imgW imgH rot d = (None, r) /\
    rw r / rh r == currentImgAspect rot imgW imgH /\
    rx d <= rx r /\ rx r + rw r <= rx d + rw d /\
    ry d <= ry r /\ ry r + rh r <= ry d + rh d /\
    (rw d / rh d < currentImgAspect rot imgW imgH ->
       rx r == rx d /\ rw r == rw d /\
       ry r - ry d == (ry d + rh d) - (ry r + rh r)) /\
    (currentImgAspect rot imgW imgH <= rw d / rh d ->
       ry r == ry d /\ rh r == rh d /\
       rx r - rx d == (rx d + rw d) - (rx r + rw r)).
Proof.
  intros Hw Hh Hdw Hdh.
  pose proof (currentImgAspect_pos rot imgW imgH Hw Hh) as Ha.
  unfold fitImage.
  set (a := currentImgAspect rot imgW imgH) in *.
  destruct (Qltb (rw d / rh d) a) eqn:E.
  - apply Qltb_iff in E. eexists. split; [reflexivity|]. simpl.
    pose proof E as E'. apply Qdiv_lt_iff in E; [|exact Hdh].
    assert (Hf : rw d / a <= rh d) by (apply Qle_shift_div_r; lra).
    assert (Hf0 : 0 <= rw d / a) by (apply Qle_shift_div_l; lra).
    split; [field; lra|].
    assert (Hn : ~ a <= rw d / rh d) by (apply Qlt_not_le; exact E').
    set (f := rw d / a) in *.
    rewrite !Qdiv2.
    repeat match goal with |- _ /\ _ => split end; try lra.
    all: intro Hx; first [contradiction |
           repeat match goal with |- _ /\ _ => split end; lra].
  - apply Qltb_false in E. eexists. split; [reflexivity|]. simpl.
    pose proof E as E'. apply Qle_div_iff in E; [|exact Hdh].
    assert (Hf0 : 0 <= rh d * a) by (apply Qmult_le_0_compat; lra).
    assert (Hf : rh d * a <= rw d) by (rewrite Qmult_comm; exact E).
    split; [field; lra|].
    assert (Hn : ~ rw d / rh d < a) by (apply Qle_not_lt; exact E').
    set (f := rh d * a) in *.
    rewrite !Qdiv2.
    repeat match goal with |- _ /\ _ => split end; try lra.
    all: intro Hx; first [contradiction |
           repeat match goal with |- _ /\ _ => split end; lra].
Qed.

Lemma fitImage_contain_witness :
  (0 < 4000 /\ 0 < 3000 /\ 0 < rw (mkRect 0 0 1181 1772) /\ 0 < rh (mkRect 0 0 1181 1772)) /\
  exists r : Rect,
    fitImage Contain 4000 3000 false (mkRect 0 0 1181 1772) = (None, r) /\
    rw r / rh r == currentImgAspect false 4000 3000 /\
    0 <= rx r /\ rx r + rw r <= 0 + 1181 /\
    0 <= ry r /\ ry r + rh r <= 0 + 1772 /\
    (1181 / 1772 < currentImgAspect false 4000 3000 ->
       rx r == 0 /\ rw r == 1181 /\ ry r - 0 == (0 + 1772) - (ry r + rh r)) /\
    (currentImgAspect false 4000 3000 <= 1181 / 1772 ->
       ry r == 0 /\ rh r == 1772 /\ rx r - 0 == (0 + 1181) - (rx r + rw r)).
Proof.
  split; [repeat split; reflexivity|].
  apply (fitImage_contain 4000 3000 false (mkRect 0 0 1181 1772)); reflexivity.
Defined.

Lemma getTargetSize_custom_witness :
  sizeId pxCustomSettings = "custom"%string /\
  getTargetSize pxCustomSettings = (1000 * 2.54 / 300, 1500 * 2.54 / 300) /\
  Qabs (fst (getTargetSize pxCustomSettings) - 8.467) < 0.001.
Proof.
  assert (H : sizeId pxCustomSettings = "custom"%string) by reflexivity.
  destruct (getTargetSize_custom pxCustomSettings H) as [H1 H2].
  split; [exact H|]. split; [exact H1|].
  apply H2; reflexivity.
Defined.

Lemma getTargetSize_unknown_id_witness :
  getTargetSize (mkPrintSettings "9x13" 10 15 Ucm false false OAuto 0.2 0.3 Cover) = (10, 15).
Proof.
  apply getTargetSize_unknown_id; simpl.
  - discriminate.
  - intros [H|[H|[H|[H|[H|[H|[H|H]]]]]]]; discriminate || contradiction.
Defined.

(** ** Layout: what gets placed *)

Lemma layoutStep_tags pw ph m s o tw th st img :
  map placedTag (allPlaced (layoutStep pw ph m s o tw th st img)) =
  map placedTag (allPlaced st) ++ [(img, orientSlot o tw th img)].
Proof.
  unfold layoutStep. destruct (orientSlot o tw th img) as [[w h] rot].
  unfold placeItem, breakPage, wrapRow, allPlaced.
  destruct (Qltb (pw - m + 0.001) (currentX st + w));
  destruct (Qltb (ph - m + 0.001) (_ + h)); simpl;
  rewrite ?concat_app, ?map_app; simpl;
  rewrite ?app_nil_r, ?map_app, ?app_assoc; reflexivity.
Qed.

Lemma fold_layoutStep_tags pw ph m s o tw th l st :
  map placedTag (allPlaced (fold_left (layoutStep pw ph m s o tw th) l st)) =
  map placedTag (allPlaced st) ++ map (fun i => (i, orientSlot o tw th i)) l.
Proof.
  revert st. induction l as [|img l IH]; intro st; simpl.
  - rewrite app_nil_r. reflexivity.
  - rewrite IH, layoutStep_tags, <- app_assoc. reflexivity.
Qed.

Lemma packPages_tags pw ph settings images :
  map placedTag (concat (packPages pw ph settings images)) =
  map (fun i => (i, orientSlot (orientation settings)
                      (fst (getTargetSize settings)) (snd (getTargetSize settings)) i))
      (allItemsToPrint images).
Proof.
  unfold packPages.
  match goal with |- context [fold_left ?f ?l ?s0] =>
    pose proof (fold_layoutStep_tags pw ph (margin settings) (spacing settings)
      (orientation settings) (fst (getTargetSize settings))
      (snd (getTargetSize settings)) l s0) as H;
    destruct (fold_left f l s0) as [pgs cur cx cy rh] end.
  unfold allPlaced in H. simpl in *.
  destruct (Nat.ltb 0 (length cur)) eqn:E.
  - rewrite concat_app. simpl. rewrite app_nil_r. exact H.
  - destruct cur; [|discriminate E]. rewrite app_nil_r in H. exact H.
Qed.

Lemma centerPage_tags pw pg : map placedTag (centerPage pw pg) = map placedTag pg.
Proof.
  destruct pg as [|p r]; [reflexivity|]. unfold centerPage.
  rewrite map_map. apply map_ext. intro a. reflexivity.
Qed.

Lemma calculateLayout_tags settings images :
  map placedTag (concat (calculateLayout settings images)) =
  map (fun i => (i, orientSlot (orientation settings)
                      (fst (getTargetSize settings)) (snd (getTargetSize settings)) i))
      (allItemsToPrint images).
Proof.
  unfold calculateLayout. rewrite <- (packPages_tags A4_WIDTH_CM A4_HEIGHT_CM).
  induction (packPages A4_WIDTH_CM A4_HEIGHT_CM settings images) as [|pg r IH];
    [reflexivity|].
  simpl. rewrite !map_app, centerPage_tags, IH. reflexivity.
Qed.

Lemma length_fan_out (images : list ImageFile) :
  length (flat_map (fun img => repeat img (copies img)) images) =
  list_sum (map copies images).
Proof.
  induction images as [|i r IH]; [reflexivity|].
  simpl. rewrite length_app, repeat_length, IH. reflexivity.
Qed.

(** C2: the placed entries, read page by page, are exactly the copies of
    the images in input order, each image's copies contiguous; so their
    number is the sum of the copy counts. *)
Theorem calculateLayout_copies (settings : PrintSettings) (images : list ImageFile) :
  map pl_img (concat (calculateLayout settings images)) =
    flat_map (fun img => repeat img (copies img)) images /\
  length (concat (calculateLayout settings images)) = list_sum (map copies images).
Proof.
  pose proof (f_equal (map fst) (calculateLayout_tags settings images)) as H.
  rewrite !map_map in H. simpl in H. rewrite map_id in H.
  unfold allItemsToPrint in H.
  split.
  - exact H.
  - rewrite <- length_fan_out. rewrite <- H, length_map. reflexivity.
Qed.

(** ** Layout: orientation of images of unknown size *)

Lemma calculateLayout_orient settings images p :
  In p (concat (calculateLayout settings images)) ->
  (pl_w p, pl_h p, isRotated p) =
  orientSlot (orientation settings)
    (fst (getTargetSize settings)) (snd (getTargetSize settings)) (pl_img p).
Proof.
  intro Hin. apply (in_map placedTag) in Hin.
  rewrite calculateLayout_tags in Hin. apply in_map_iff in Hin.
  destruct Hin as [i [Heq _]]. unfold placedTag in Heq.
  injection Heq as Hi Ho. rewrite <- Hi. symmetry. exact Ho.
Qed.

(** C4, as stated: under [auto] an image of unknown size never swaps the
    slot.  Refuted with a custom 15 x 10 cm (landscape) slot: the single
    0 x 0 image is placed in a swapped 10 x 15 slot with [isRotated]. *)
Lemma unknown_dims_landscape_slot_swapped :
  exists p, In p (concat (calculateLayout landscapeSettings [unknownImage "a"])) /\
    width (pl_img p) = 0 /\ height (pl_img p) = 0 /\
    getTargetSize landscapeSettings = (15, 10) /\
    pl_w p = 10 /\ pl_h p = 15 /\ isRotated p = true.
Proof.
  vm_compute. eexists. split; [left; reflexivity|].
  repeat split; reflexivity.
Qed.

(** C4, amended: under [auto] an image of unknown size (0 x 0) is not
    landscape, like any square image: its slot is swapped and marked
    rotated exactly when the natural slot is landscape (width > height). *)
Theorem calculateLayout_unknown_dims_auto (settings : PrintSettings)
  (images : list ImageFile) (p : Placed) :
  orientation settings = OAuto ->
  In p (concat (calculateLayout settings images)) ->
  width (pl_img p) = 0 -> height (pl_img p) = 0 ->
  (pl_w p, pl_h p, isRotated p) =
  (if Qltb (snd (getTargetSize settings)) (fst (getTargetSize settings))
   then (snd (getTargetSize settings), fst (getTargetSize settings), true)
   else (fst (getTargetSize settings), snd (getTargetSize settings), false)).
Proof.
  intros Ho Hin Hw Hh. rewrite (calculateLayout_orient _ _ _ Hin), Ho.
  unfold orientSlot. rewrite Hw, Hh. simpl.
  destruct (Qltb _ _); reflexivity.
Qed.

Lemma calculateLayout_unknown_dims_auto_witness :
  (pl_w (mkPlaced (unknownImage "a") (110000 # 20000) 0.3 10 15 true),
   pl_h (mkPlaced (unknownImage "a") (110000 # 20000) 0.3 10 15 true),
   isRotated (mkPlaced (unknownImage "a") (110000 # 20000) 0.3 10 15 true)) = (10, 15, true).
Proof.
  refine (eq_trans (calculateLayout_unknown_dims_auto landscapeSettings
            [unknownImage "a"] (mkPlaced (unknownImage "a") (110000 # 20000) 0.3 10 15 true)
            eq_refl _ eq_refl eq_refl) _).
  - vm_compute. left. reflexivity.
  - vm_compute. reflexivity.
Defined.

(** ** Layout: scenario 1 *)

(** C3, as stated: the three 0 x 0 images on the default settings do not
    share one page; the layout has two pages. *)
Lemma scenario1_two_pages :
  length (calculateLayout defaultSettings scenario1Images) = 2%nat.
Proof. vm_compute. reflexivity. Qed.

(** C3, amended: the first two copies share the first row of page 1 at
    y = 0.3, packed at x = 0.3 and 10.5 and centred by 0.1 to 0.4 and 10.6;
    the third wraps to y = 15.5, where 15.5 + 15 > 29.7 - 0.3 + 0.001, so it
    opens page 2 at y = 0.3, centred to x = 5.5. *)
Theorem scenario1_layout :
  match packPages A4_WIDTH_CM A4_HEIGHT_CM defaultSettings scenario1Images,
        calculateLayout defaultSettings scenario1Images with
  | [[r1; r2]; [r3]], [[p1; p2]; [p3]] =>
      pl_x r1 == 0.3 /\ pl_x r2 == 10.5 /\ pl_x r3 == 0.3 /\
      centerOffset A4_WIDTH_CM [r1; r2] == 0.1 /\
      pl_x p1 == 0.3 + 0.1 /\ pl_y p1 == 0.3 /\
      pl_x p2 == 10.5 + 0.1 /\ pl_y p2 == 0.3 /\
      pl_x p3 == 5.5 /\ pl_y p3 == 0.3 /\
      map pl_img [p1; p2; p3] = scenario1Images /\
      map pl_w [p1; p2; p3] = [10; 10; 10] /\ map pl_h [p1; p2; p3] = [15; 15; 15] /\
      map isRotated [p1; p2; p3] = [false; false; false]
  | _, _ => False
  end.
Proof. vm_compute. repeat split; reflexivity. Qed.

(** ** Layout: [Math.min] and [Math.max] over a page *)

Lemma fold_min_le_acc (r : list Q) (a : Q) : fold_left Qmin r a <= a.
Proof.
  revert a. induction r as [|b r IH]; intro a; simpl; [apply Qle_refl|].
  eapply Qle_trans; [apply IH|]. apply Q.le_min_l.
Qed.

Lemma fold_min_le_in (r : list Q) (a v : Q) : In v r -> fold_left Qmin r a <= v.
Proof.
  revert a. induction r as [|b r IH]; intros a Hin; simpl in *; [contradiction|].
  destruct Hin as [<-|Hin].
  - eapply Qle_trans; [apply fold_min_le_acc|]. apply Q.le_min_r.
  - apply IH. exact Hin.
Qed.

Lemma fold_min_ge (r : list Q) (a lo : Q) :
  lo <= a -> Forall (fun v => lo <= v) r -> lo <= fold_left Qmin r a.
Proof.
  revert a. induction r as [|b r IH]; intros a Ha Hr; simpl; [exact Ha|].
  inversion Hr; subst. apply IH; [|assumption]. apply Q.min_glb; assumption.
Qed.

Lemma fold_max_ge_acc (r : list Q) (a : Q) : a <= fold_left Qmax r a.
Proof.
  revert a. induction r as [|b r IH]; intro a; simpl; [apply Qle_refl|].
  eapply Qle_trans; [|apply IH]. apply Q.le_max_l.
Qed.

Lemma fold_max_ge_in (r : list Q) (a v : Q) : In v r -> v <= fold_left Qmax r a.
Proof.
  revert a. induction r as [|b r IH]; intros a Hin; simpl in *; [contradiction|].
  destruct Hin as [<-|Hin].
  - eapply Qle_trans; [|apply fold_max_ge_acc]. apply Q.le_max_r.
  - apply IH. exact Hin.
Qed.

Lemma fold_max_le (r : list Q) (a hi : Q) :
  a <= hi -> Forall (fun v => v <= hi) r -> fold_left Qmax r a <= hi.
Proof.
  revert a. induction r as [|b r IH]; intros a Ha Hr; simpl; [exact Ha|].
  inversion Hr; subst. apply IH; [|assumption]. apply Q.max_lub; assumption.
Qed.

(** Translating every value by [o] translates the minimum and the maximum. *)
Lemma fold_min_shift (o : Q) (r r' : list Q) (a a' : Q) :
  Forall2 (fun u v => v == u + o) r r' -> a' == a + o ->
  fold_left Qmin r' a' == fold_left Qmin r a + o.
Proof.
  intro H. revert a a'. induction H as [|u v r r' Huv _ IH]; intros a a' Ha; simpl.
  - exact Ha.
  - apply IH. rewrite Ha, Huv. apply Q.plus_min_distr_r.
Qed.

Lemma fold_max_shift (o : Q) (r r' : list Q) (a a' : Q) :
  Forall2 (fun u v => v == u + o) r r' -> a' == a + o ->
  fold_left Qmax r' a' == fold_left Qmax r a + o.
Proof.
  intro H. revert a a'. induction H as [|u v r r' Huv _ IH]; intros a a' Ha; simpl.
  - exact Ha.
  - apply IH. rewrite Ha, Huv. apply Q.plus_max_distr_r.
Qed.

Lemma Forall2_map_map {A B C : Type} (R : B -> C -> Prop) (f : A -> B) (g : A -> C)
  (l : list A) :
  (forall a, R (f a) (g a)) -> Forall2 R (map f l) (map g l).
Proof.
  intro H. induction l as [|a l IH]; simpl; constructor; auto.
Qed.

Lemma minX_shift (o : Q) (pg : Page) :
  pg <> [] -> minX (map (shiftX o) pg) == minX pg + o.
Proof.
  destruct pg as [|p r]; [contradiction|]. intros _.
  unfold minX, listMin. simpl. apply fold_min_shift; [|apply Qeq_refl].
  rewrite map_map. apply Forall2_map_map. intro a. apply Qeq_refl.
Qed.

Lemma maxX_shift (o : Q) (pg : Page) :
  pg <> [] -> maxX (map (shiftX o) pg) == maxX pg + o.
Proof.
  destruct pg as [|p r]; [contradiction|]. intros _.
  unfold maxX, listMax. simpl. apply fold_max_shift; [|ring].
  rewrite map_map. apply Forall2_map_map. intro a. simpl. ring.
Qed.

Lemma centerPage_nonempty (pw : Q) (pg : Page) :
  pg <> [] -> centerPage pw pg = map (shiftX (centerOffset pw pg)) pg.
Proof. destruct pg; [contradiction|reflexivity]. Qed.

(** The centering pass on one non-empty page. *)
Lemma centerPage_spec (pw : Q) (pg : Page) :
  pg <> [] ->
  Forall2 (fun p q =>
      pl_x q == pl_x p + ((pw - (maxX pg - minX pg)) / 2 - minX pg) /\
      pl_y q = pl_y p /\ pl_w q = pl_w p /\ pl_h q = pl_h p /\
      isRotated q = isRotated p /\ pl_img q = pl_img p) pg (centerPage pw pg) /\
  minX (centerPage pw pg) + maxX (centerPage pw pg) == pw.
Proof.
  intro Hne. rewrite (centerPage_nonempty pw pg Hne). split.
  - rewrite <- (map_id pg) at 1. apply Forall2_map_map. intro a.
    simpl. repeat split; reflexivity.
  - rewrite (minX_shift _ _ Hne), (maxX_shift _ _ Hne).
    unfold centerOffset. rewrite !Qdiv2. lra.
Qed.

(** C8: each non-empty packed page is shifted as a whole by
    [(pageWidth - contentWidth) / 2 - minX]; only [x] changes, and the
    content's left and right edges end up symmetric about the page centre. *)
Theorem calculateLayout_centering (settings : PrintSettings)
  (images : list ImageFile) (i : nat) (pg : Page) :
  nth_error (packPages A4_WIDTH_CM A4_HEIGHT_CM settings images) i = Some pg ->
  pg <> [] ->
  exists pg' : Page,
    nth_error (calculateLayout settings images) i = Some pg' /\
    Forall2 (fun p q =>
        pl_x q == pl_x p + ((A4_WIDTH_CM - (maxX pg - minX pg)) / 2 - minX pg) /\
        pl_y q = pl_y p /\ pl_w q = pl_w p /\ pl_h q = pl_h p /\
        isRotated q = isRotated p /\ pl_img q = pl_img p) pg pg' /\
    minX pg' + maxX pg' == A4_WIDTH_CM.
Proof.
  intros Hi Hne. exists (centerPage A4_WIDTH_CM pg). split.
  - unfold calculateLayout. rewrite nth_error_map, Hi. reflexivity.
  - apply centerPage_spec. exact Hne.
Qed.

Lemma calculateLayout_centering_witness :
  exists pg' : Page,
    nth_error (calculateLayout defaultSettings scenario1Images) 0 = Some pg' /\
    minX pg' + maxX pg' == A4_WIDTH_CM.
Proof.
  match eval vm_compute in
    (nth_error (packPages A4_WIDTH_CM A4_HEIGHT_CM defaultSettings scenario1Images) 0)
  with
  | Some ?pg =>
      destruct (calculateLayout_centering defaultSettings scenario1Images 0 pg
                  ltac:(vm_compute; reflexivity) ltac:(discriminate))
        as [pg' [H1 [_ H3]]]
  end.
  exists pg'. split; assumption.
Defined.

(** ** Layout: no overlap, within the margins *)

Lemma ForallOrdPairs_app_one {A : Type} (R : A -> A -> Prop) (l : list A) (a : A) :
  ForallOrdPairs R l -> Forall (fun q => R q a) l -> ForallOrdPairs R (l ++ [a]).
Proof.
  induction 1 as [|b l Hb Hl IH]; intro Ha; simpl.
  - constructor; [constructor|constructor].
  - inversion Ha; subst. constructor.
    + apply Forall_app. split; [exact Hb|]. constructor; [assumption|constructor].
    + apply IH. assumption.
Qed.

Lemma ForallOrdPairs_map {A B : Type} (R : A -> A -> Prop) (S : B -> B -> Prop)
  (f : A -> B) (l : list A) :
  (forall a b, R a b -> S (f a) (f b)) ->
  ForallOrdPairs R l -> ForallOrdPairs S (map f l).
Proof.
  intros Hf. induction 1 as [|a l Ha Hl IH]; simpl; constructor; [|exact IH].
  apply Forall_map. eapply Forall_impl; [|exact Ha]. intros b Hb. apply Hf. exact Hb.
Qed.

Lemma ForallOrdPairs_nth {A : Type} (R : A -> A -> Prop) (l : list A) :
  (forall a b, R a b -> R b a) -> ForallOrdPairs R l ->
  forall i j a b, i <> j -> nth_error l i = Some a -> nth_error l j = Some b -> R a b.
Proof.
  intros Hsym. induction 1 as [|c l Hc Hl IH]; intros i j a b Hij Hi Hj.
  - destruct i; discriminate.
  - destruct i as [|i], j as [|j]; simpl in Hi, Hj.
    + contradiction.
    + injection Hi as <-. apply nth_error_In in Hj.
      rewrite Forall_forall in Hc. apply Hc. exact Hj.
    + injection Hj as <-. apply nth_error_In in Hi.
      rewrite Forall_forall in Hc. apply Hsym, Hc. exact Hi.
    + apply (IH i j); [lia|assumption|assumption].
Qed.

Lemma disjoint_sym (p q : Placed) : disjoint p q -> disjoint q p.
Proof. unfold disjoint. tauto. Qed.

Lemma disjoint_shiftX (o : Q) (p q : Placed) :
  disjoint p q -> disjoint (shiftX o p) (shiftX o q).
Proof.
  unfold disjoint, shiftX. simpl. intros [H|[H|[H|H]]]; [left|right;left|right;right;left|right;right;right]; lra.
Qed.

Section PackingInvariant.
Variables pw ph m s : Q.
Hypothesis Hs : 0 <= s.

Lemma wrapRow_inv (st : LayoutState) (w : Q) :
  packInv pw ph m st -> 0 <= w -> w <= pw - 2 * m ->
  packInv pw ph m (wrapRow pw m s st w) /\
  currentX (wrapRow pw m s st w) + w <= pw - m + 0.001.
Proof.
  intros [Hp [Hc [Hb [Hx [Hy Hr]]]]] Hw0 Hw. unfold wrapRow.
  destruct (Qltb (pw - m + 0.001) (currentX st + w)) eqn:E.
  - simpl. split; [|lra].
    refine (conj Hp (conj Hc (conj _ (conj _ (conj _ _))))); simpl; try lra.
    eapply Forall_impl; [|exact Hb]. unfold behindCursor. simpl.
    intros p [Hp1|[Hp1 [_ Hp3]]]; left; lra.
  - apply Qltb_false in E. split; [|exact E].
    exact (conj Hp (conj Hc (conj Hb (conj Hx (conj Hy Hr))))).
Qed.

Lemma breakPage_inv (st : LayoutState) (w h : Q) :
  packInv pw ph m st -> 0 <= w -> w <= pw - 2 * m ->
  0 <= h -> h <= ph - 2 * m -> currentX st + w <= pw - m + 0.001 ->
  packInv pw ph m (breakPage ph m st h) /\
  currentX (breakPage ph m st h) + w <= pw - m + 0.001 /\
  currentY (breakPage ph m st h) + h <= ph - m + 0.001.
Proof.
  intros Hinv Hw0 Hw Hh0 Hh HX. unfold breakPage.
  destruct (Qltb (ph - m + 0.001) (currentY st + h)) eqn:E.
  - destruct Hinv as [Hp [Hc [Hb [Hx [Hy Hr]]]]]. simpl.
    split; [|split; lra].
    unfold packInv. simpl. repeat split; try lra.
    + apply Forall_app. split; [exact Hp|]. constructor; [exact Hc|constructor].
    + constructor.
    + constructor.
    + constructor.
  - apply Qltb_false in E. split; [exact Hinv|split; assumption].
Qed.

Lemma placeItem_inv (st : LayoutState) (img : ImageFile) (w h : Q) (rot : bool) :
  packInv pw ph m st -> 0 <= w -> 0 <= h ->
  currentX st + w <= pw - m + 0.001 -> currentY st + h <= ph - m + 0.001 ->
  packInv pw ph m (placeItem s st img w h rot).
Proof.
  intros [Hp [[Hcb Hco] [Hb [Hx [Hy Hr]]]]] Hw0 Hh0 HX HY.
  unfold packInv, placeItem, goodPage. simpl.
  assert (Hmax : Qmax (rowHeight st) h >= rowHeight st /\ Qmax (rowHeight st) h >= h)
    by (split; [apply Q.le_max_l|apply Q.le_max_r]).
  repeat split.
  - exact Hp.
  - apply Forall_app. split; [exact Hcb|].
    constructor; [|constructor]. unfold packedBounds. simpl. repeat split; lra.
  - apply ForallOrdPairs_app_one; [exact Hco|].
    eapply Forall_impl; [|exact Hb]. unfold behindCursor, disjoint. simpl.
    intros q [Hq|[Hq1 [Hq2 _]]]; [right; right; left; lra|left; lra].
  - apply Forall_app. split.
    + eapply Forall_impl; [|exact Hb]. unfold behindCursor. simpl.
      intros q [Hq|[Hq1 [Hq2 Hq3]]]; [left; exact Hq|right; repeat split; lra].
    + constructor; [|constructor]. unfold behindCursor. simpl.
      right. repeat split; lra.
  - lra.
  - exact Hy.
  - lra.
Qed.

Lemma layoutStep_inv (o : Orientation) (tw th : Q) (st : LayoutState) (img : ImageFile) :
  packInv pw ph m st -> slotFits pw ph m (orientSlot o tw th img) ->
  packInv pw ph m (layoutStep pw ph m s o tw th st img).
Proof.
  intros Hinv Hfit. unfold layoutStep.
  destruct (orientSlot o tw th img) as [[w h] rot].
  destruct Hfit as [Hw0 [Hw [Hh0 Hh]]]. simpl in *.
  destruct (wrapRow_inv st w Hinv Hw0 Hw) as [H1 HX1].
  destruct (breakPage_inv _ w h H1 Hw0 Hw Hh0 Hh HX1) as [H2 [HX2 HY2]].
  apply placeItem_inv; assumption.
Qed.

Lemma fold_layoutStep_inv (o : Orientation) (tw th : Q) (l : list ImageFile)
  (st : LayoutState) :
  Forall (fun img => slotFits pw ph m (orientSlot o tw th img)) l ->
  packInv pw ph m st ->
  packInv pw ph m (fold_left (layoutStep pw ph m s o tw th) l st).
Proof.
  revert st. induction l as [|img l IH]; intros st Hl Hst; simpl; [exact Hst|].
  inversion Hl; subst. apply IH; [assumption|]. apply layoutStep_inv; assumption.
Qed.

End PackingInvariant.

Lemma packPages_good (pw ph : Q) (settings : PrintSettings) (images : list ImageFile) :
  0 <= spacing settings ->
  Forall (fun img => slotFits pw ph (margin settings) (effectiveSlot settings img))
    (allItemsToPrint images) ->
  Forall (goodPage pw ph (margin settings)) (packPages pw ph settings images).
Proof.
  intros Hs Hfit. unfold packPages.
  match goal with |- context [fold_left ?f ?l ?s0] =>
    pose proof (fold_layoutStep_inv pw ph (margin settings) (spacing settings) Hs
      (orientation settings) (fst (getTargetSize settings))
      (snd (getTargetSize settings)) l s0 Hfit) as H;
    destruct (fold_left f l s0) as [pgs cur cx cy rh] end.
  destruct H as [Hp [Hc _]].
  - unfold packInv, goodPage. simpl.
    repeat split; try constructor; apply Qle_refl.
  - simpl in *. destruct (Nat.ltb 0 (length cur)).
    + apply Forall_app. split; [exact Hp|]. constructor; [exact Hc|constructor].
    + exact Hp.
Qed.

Lemma minX_le (pg : Page) (q : Placed) : In q pg -> minX pg <= pl_x q.
Proof.
  destruct pg as [|a r]; [contradiction|]. unfold minX, listMin. simpl.
  intros [<-|Hq]; [apply fold_min_le_acc|].
  apply fold_min_le_in. apply in_map. exact Hq.
Qed.

Lemma maxX_ge (pg : Page) (q : Placed) : In q pg -> pl_x q + pl_w q <= maxX pg.
Proof.
  destruct pg as [|a r]; [contradiction|]. unfold maxX, listMax. simpl.
  intros [<-|Hq]; [apply fold_max_ge_acc|].
  apply fold_max_ge_in. apply (in_map (fun i => pl_x i + pl_w i)). exact Hq.
Qed.

Lemma minX_ge (pg : Page) (lo : Q) :
  pg <> [] -> Forall (fun q => lo <= pl_x q) pg -> lo <= minX pg.
Proof.
  destruct pg as [|a r]; [contradiction|]. intros _ H. inversion H; subst.
  unfold minX, listMin. simpl. apply fold_min_ge; [assumption|].
  apply Forall_map. assumption.
Qed.

Lemma maxX_le (pg : Page) (hi : Q) :
  pg <> [] -> Forall (fun q => pl_x q + pl_w q <= hi) pg -> maxX pg <= hi.
Proof.
  destruct pg as [|a r]; [contradiction|]. intros _ H. inversion H; subst.
  unfold maxX, listMax. simpl. apply fold_max_le; [assumption|].
  apply Forall_map. assumption.
Qed.

(** Centering keeps a packed page disjoint and moves its entries by at most
    half of the 0.001 tolerance past the margins. *)
Lemma centerPage_good (pw ph m : Q) (pg : Page) :
  goodPage pw ph m pg ->
  Forall (fun p =>
      m - 0.001 <= pl_x p /\ pl_x p + pl_w p <= pw - m + 0.001 /\
      m <= pl_y p /\ pl_y p + pl_h p <= ph - m + 0.001) (centerPage pw pg) /\
  ForallOrdPairs disjoint (centerPage pw pg).
Proof.
  intros [Hb Hd]. destruct pg as [|a r] eqn:Epg; [split; constructor|].
  rewrite <- Epg in *. assert (Hne : pg <> []) by (rewrite Epg; discriminate).
  rewrite (centerPage_nonempty pw pg Hne). split.
  - apply Forall_map. rewrite Forall_forall in Hb |- *. intros q Hq.
    destruct (Hb q Hq) as [Hq1 [Hq2 [Hq3 Hq4]]].
    pose proof (minX_le pg q Hq) as H1. pose proof (maxX_ge pg q Hq) as H2.
    assert (H3 : m <= minX pg).
    { apply minX_ge; [exact Hne|]. apply Forall_forall. intros x Hx. apply Hb, Hx. }
    assert (H4 : maxX pg <= pw - m + 0.001).
    { apply maxX_le; [exact Hne|]. apply Forall_forall. intros x Hx. apply Hb, Hx. }
    unfold shiftX, centerOffset. simpl. rewrite Qdiv2.
    set (lo := minX pg) in *. set (hi := maxX pg) in *.
    repeat split; lra.
  - apply ForallOrdPairs_map with (R := disjoint); [|exact Hd].
    intros p q. apply disjoint_shiftX.
Qed.

(** C1: when every copy's effective slot fits the printable area and the
    spacing is non-negative, the entries of each page have disjoint
    interiors and lie within the margins up to the 0.001 cm tolerance,
    after the centering pass. *)
Theorem calculateLayout_no_overlap_in_bounds (settings : PrintSettings)
  (images : list ImageFile) :
  0 <= spacing settings ->
  (forall img, In img images ->
     slotFits A4_WIDTH_CM A4_HEIGHT_CM (margin settings) (effectiveSlot settings img)) ->
  forall pg, In pg (calculateLayout settings images) ->
    (forall p, In p pg ->
       margin settings - 0.001 <= pl_x p /\
       pl_x p + pl_w p <= A4_WIDTH_CM - margin settings + 0.001 /\
       margin settings <= pl_y p /\
       pl_y p + pl_h p <= A4_HEIGHT_CM - margin settings + 0.001) /\
    (forall i j p q, i <> j -> nth_error pg i = Some p -> nth_error pg j = Some q ->
       disjoint p q).
Proof.
  intros Hs Hfit pg Hin.
  assert (Hall : Forall (fun img => slotFits A4_WIDTH_CM A4_HEIGHT_CM (margin settings)
                                      (effectiveSlot settings img))
                   (allItemsToPrint images)).
  { apply Forall_forall. intros img Himg. apply Hfit.
    unfold allItemsToPrint in Himg. apply in_flat_map in Himg.
    destruct Himg as [i [Hi Hr]]. apply repeat_spec in Hr. subst. exact Hi. }
  pose proof (packPages_good _ _ settings images Hs Hall) as Hgood.
  unfold calculateLayout in Hin. apply in_map_iff in Hin.
  destruct Hin as [raw [<- Hraw]].
  rewrite Forall_forall in Hgood.
  destruct (centerPage_good _ _ _ raw (Hgood raw Hraw)) as [Hb Hd].
  split.
  - rewrite Forall_forall in Hb. exact Hb.
  - apply ForallOrdPairs_nth; [exact disjoint_sym|exact Hd].
Qed.

Lemma calculateLayout_no_overlap_in_bounds_witness :
  match calculateLayout defaultSettings scenario1Images with
  | (p1 :: p2 :: _) :: _ => disjoint p1 p2 /\ defaultSettings.(margin) - 0.001 <= pl_x p2
  | _ => False
  end.
Proof.
  assert (Hs : 0 <= spacing defaultSettings) by (apply Qle_bool_imp_le; reflexivity).
  assert (Hfit : forall img, In img scenario1Images ->
            slotFits A4_WIDTH_CM A4_HEIGHT_CM (margin defaultSettings)
              (effectiveSlot defaultSettings img)).
  { intros img [<-|[<-|[<-|[]]]]; unfold slotFits;
      repeat split; apply Qle_bool_imp_le; vm_compute; reflexivity. }
  pose proof (calculateLayout_no_overlap_in_bounds defaultSettings scenario1Images Hs Hfit)
    as H.
  match eval vm_compute in (calculateLayout defaultSettings scenario1Images) with
  | ((?p1 :: ?p2 :: ?r) :: ?rest) =>
      change (disjoint p1 p2 /\ margin defaultSettings - 0.001 <= pl_x p2);
      destruct (H (p1 :: p2 :: r) ltac:(vm_compute; left; reflexivity)) as [Hb Hd]
  end.
  split.
  - apply (Hd 0%nat 1%nat); [discriminate|reflexivity|reflexivity].
  - apply Hb. right. left. reflexivity.
Defined.

(** * Further properties of the code *)

(** ** Unit helpers *)



(** ** The preview page *)

(** After the effect, [previewPage] indexes an existing page when there is
    one and is 0 otherwise; an index already in range is kept, and running
    the effect again changes nothing. *)
Theorem previewPageAfterEffect_in_range (previewPage n : nat) :
  (0 < n -> previewPageAfterEffect previewPage n < n)%nat /\
  (n = 0 -> previewPageAfterEffect previewPage n = 0)%nat /\
  (previewPage < n -> previewPageAfterEffect previewPage n = previewPage)%nat /\
  previewPageAfterEffect (previewPageAfterEffect previewPage n) n =
    previewPageAfterEffect previewPage n.
Proof.
  unfold previewPageAfterEffect.
  destruct (Nat.leb n previewPage) eqn:E1, (Nat.ltb 0 n) eqn:E2, (Nat.eqb n 0) eqn:E3;
    simpl; rewrite ?Nat.leb_le, ?Nat.leb_gt, ?Nat.ltb_lt, ?Nat.ltb_ge,
      ?Nat.eqb_eq, ?Nat.eqb_neq in *;
    repeat split; intros; try lia;
    repeat match goal with
    | |- context [Nat.leb ?a ?b] => destruct (Nat.leb a b) eqn:?
    | |- context [Nat.ltb ?a ?b] => destruct (Nat.ltb a b) eqn:?
    | |- context [Nat.eqb ?a ?b] => destruct (Nat.eqb a b) eqn:?
    end; simpl;
    rewrite ?Nat.leb_le, ?Nat.leb_gt, ?Nat.ltb_lt, ?Nat.ltb_ge,
      ?Nat.eqb_eq, ?Nat.eqb_neq in *; lia.
Qed.

Lemma previewPageAfterEffect_in_range_witness :
  previewPageAfterEffect 5 2 = 1%nat /\ (previewPageAfterEffect 5 2 < 2)%nat.
Proof.
  destruct (previewPageAfterEffect_in_range 5 2) as [H1 _].
  split; [reflexivity|]. apply H1. lia.
Defined.

(** ** The image list and the layout *)

Lemma calculateLayout_images (settings : PrintSettings) (images : list ImageFile) :
  map pl_img (concat (calculateLayout settings images)) = allItemsToPrint images.
Proof.
  pose proof (f_equal (map fst) (calculateLayout_tags settings images)) as H.
  rewrite !map_map in H. simpl in H. rewrite map_id in H. exact H.
Qed.

Lemma allItemsToPrint_app (l1 l2 : list ImageFile) :
  allItemsToPrint (l1 ++ l2) = allItemsToPrint l1 ++ allItemsToPrint l2.
Proof. unfold allItemsToPrint. apply flat_map_app. Qed.

Lemma filter_repeat {A : Type} (f : A -> bool) (a : A) (n : nat) :
  filter f (repeat a n) = if f a then repeat a n else [].
Proof.
  induction n as [|n IH]; simpl; [destruct (f a); reflexivity|].
  rewrite IH. destruct (f a); reflexivity.
Qed.

Lemma allItemsToPrint_filter (f : ImageFile -> bool) (l : list ImageFile) :
  allItemsToPrint (filter f l) = filter f (allItemsToPrint l).
Proof.
  unfold allItemsToPrint. induction l as [|a l IH]; [reflexivity|].
  simpl. rewrite filter_app, filter_repeat.
  destruct (f a); simpl; rewrite IH; reflexivity.
Qed.

(** Removing an image removes exactly its copies from the layout: the
    placed images are those of the old layout without the removed id, in
    the same order. *)
Theorem removeImage_layout (settings : PrintSettings) (id : string)
  (images : list ImageFile) :
  map pl_img (concat (calculateLayout settings (removeImage id images))) =
  filter (fun i => negb (String.eqb (img_id i) id))
    (map pl_img (concat (calculateLayout settings images))).
Proof.
  rewrite !calculateLayout_images. unfold removeImage.
  apply allItemsToPrint_filter.
Qed.

(** Uploading files keeps the old placements in order and appends one
    placed copy of each new, still unsized image; with no file list the
    image list is unchanged. *)
Theorem handleFileUpload_layout (settings : PrintSettings) (ids : list string)
  (images : list ImageFile) :
  handleFileUpload None images = images /\
  map pl_img (concat (calculateLayout settings (handleFileUpload (Some ids) images))) =
  map pl_img (concat (calculateLayout settings images)) ++ map newImageFile ids.
Proof.
  split; [reflexivity|].
  rewrite !calculateLayout_images. simpl. rewrite allItemsToPrint_app.
  f_equal. unfold allItemsToPrint. induction ids as [|i r IH]; [reflexivity|].
  simpl. rewrite IH. reflexivity.
Qed.

(** When an image's pixel size arrives, the layout places the same images
    (by id), as many copies, in the same order. *)
Theorem setImageSize_layout (settings : PrintSettings) (id : string) (w h : Q)
  (images : list ImageFile) :
  map (fun p => img_id (pl_img p))
    (concat (calculateLayout settings (setImageSize id w h images))) =
  map (fun p => img_id (pl_img p)) (concat (calculateLayout settings images)).
Proof.
  rewrite <- !(map_map pl_img img_id), !calculateLayout_images.
  unfold allItemsToPrint, setImageSize. induction images as [|a l IH]; [reflexivity|].
  simpl. rewrite !map_app, IH. f_equal.
  destruct (String.eqb (img_id a) id); simpl; rewrite !map_repeat; reflexivity.
Qed.

(** Every image with at least one copy has a placed copy in the layout. *)
Theorem calculateLayout_every_image_placed (settings : PrintSettings)
  (images : list ImageFile) (img : ImageFile) :
  In img images -> (1 <= copies img)%nat ->
  exists p, In p (concat (calculateLayout settings images)) /\ pl_img p = img.
Proof.
  intros Hin Hc.
  assert (Hi : In img (map pl_img (concat (calculateLayout settings images)))).
  { rewrite calculateLayout_images. unfold allItemsToPrint. apply in_flat_map.
    exists img. split; [exact Hin|]. destruct (copies img); [lia|left; reflexivity]. }
  apply in_map_iff in Hi. destruct Hi as [p [Hp Hin']]. exists p. split; assumption.
Qed.

Lemma calculateLayout_every_image_placed_witness :
  exists p, In p (concat (calculateLayout defaultSettings scenario1Images)) /\
            pl_img p = unknownImage "c".
Proof.
  apply calculateLayout_every_image_placed.
  - right. right. left. reflexivity.
  - simpl. lia.
Defined.

(** [updateCopies] keeps the ids and their order, never leaves the updated
    image below one copy, keeps every image at one copy or more, undoes a
    [+1] with a [-1], and does nothing on a [-1] at one copy. *)
Theorem updateCopies_props (id : string) (delta : Z) (images : list ImageFile) :
  map img_id (updateCopies id delta images) = map img_id images /\
  Forall (fun i => img_id i = id -> 1 <= copies i)%nat (updateCopies id delta images) /\
  (Forall (fun i => 1 <= copies i)%nat images ->
   Forall (fun i => 1 <= copies i)%nat (updateCopies id delta images)) /\
  (Forall (fun i => img_id i = id -> 1 <= copies i)%nat images ->
   updateCopies id (-1) (updateCopies id 1 images) = images) /\
  (Forall (fun i => img_id i = id -> copies i = 1)%nat images ->
   updateCopies id (-1) images = images).
Proof.
  unfold updateCopies. induction images as [|a l IH]; simpl.
  - repeat split; intros; constructor.
  - destruct IH as [H1 [H2 [H3 [H4 H5]]]].
    destruct (String.eqb (img_id a) id) eqn:E; simpl.
    + apply String.eqb_eq in E.
      split; [rewrite H1; reflexivity|]. split; [|split; [|split]].
      * constructor; [intros _; simpl; lia|exact H2].
      * intro Hf. inversion Hf; subst. constructor; [simpl; lia|]. apply H3. assumption.
      * intro Hf. inversion Hf as [|x y Ha Hl]; subst. simpl.
        rewrite String.eqb_refl.
        replace (Z.to_nat (Z.max 1 (Z.of_nat (Z.to_nat (Z.max 1 (Z.of_nat (copies a) + 1))) + -1)))
          with (copies a) by (specialize (Ha eq_refl); lia).
        rewrite (H4 Hl). destruct a; reflexivity.
      * intro Hf. inversion Hf as [|x y Ha Hl]; subst.
        replace (Z.to_nat (Z.max 1 (Z.of_nat (copies a) + -1)))
          with (copies a) by (specialize (Ha eq_refl); lia).
        rewrite (H5 Hl). destruct a; reflexivity.
    + split; [rewrite H1; reflexivity|]. split; [|split; [|split]].
      * constructor; [intro Hc; apply String.eqb_neq in E; contradiction|exact H2].
      * intro Hf. inversion Hf; subst. constructor; [assumption|]. apply H3. assumption.
      * intro Hf. inversion Hf as [|x y Ha Hl]; subst. simpl. rewrite E, (H4 Hl). reflexivity.
      * intro Hf. inversion Hf as [|x y Ha Hl]; subst. rewrite (H5 Hl). reflexivity.
Qed.

Lemma updateCopies_props_witness :
  updateCopies "a" (-1) (updateCopies "a" 1 scenario1Images) = scenario1Images /\
  updateCopies "a" (-1) scenario1Images = scenario1Images.
Proof.
  destruct (updateCopies_props "a" 1 scenario1Images) as [_ [_ [_ [H4 _]]]].
  destruct (updateCopies_props "a" (-1) scenario1Images) as [_ [_ [_ [_ H5]]]].
  split.
  - apply H4. repeat constructor.
  - apply H5. repeat constructor.
Defined.

(** ** [saveToPNG] sizes each file like the layout's slot *)

Lemma mathRound_mono (x y : Q) : x <= y -> mathRound x <= mathRound y.
Proof.
  intro H. unfold mathRound. rewrite <- Zle_Qle. apply Qfloor_resp_le. lra.
Qed.

Lemma mathRound_antisym (x y : Q) :
  mathRound x <= mathRound y -> mathRound y <= mathRound x -> mathRound x = mathRound y.
Proof.
  unfold mathRound. rewrite <- !Zle_Qle. intros H1 H2. f_equal. lia.
Qed.

Lemma cmToPxRound_mono (a b : Q) :
  a <= b -> mathRound (a / 2.54 * 300) <= mathRound (b / 2.54 * 300).
Proof.
  intro H. apply mathRound_mono.
  setoid_replace (a / 2.54 * 300) with (a * (30000 # 254)) by field.
  setoid_replace (b / 2.54 * 300) with (b * (30000 # 254)) by field.
  apply Qmult_le_compat_r; [exact H|]. discriminate.
Qed.

Lemma pngCanvasSize_slot (settings : PrintSettings) (img : ImageFile) :
  pngCanvasSize settings img =
  (mathRound (fst (fst (effectiveSlot settings img)) / 2.54 * 300),
   mathRound (snd (fst (effectiveSlot settings img)) / 2.54 * 300)).
Proof.
  unfold pngCanvasSize, effectiveSlot, orientSlot.
  set (tw := fst (getTargetSize settings)). set (th := snd (getTargetSize settings)).
  pose proof (cmToPxRound_mono tw th) as M1. pose proof (cmToPxRound_mono th tw) as M2.
  set (pxW := mathRound (tw / 2.54 * 300)) in *.
  set (pxH := mathRound (th / 2.54 * 300)) in *.
  pose proof (mathRound_antisym (tw / 2.54 * 300) (th / 2.54 * 300)) as A.
  fold pxW pxH in A.
  destruct (orientation settings); simpl;
  destruct (Qltb (height img) (width img)); simpl;
  destruct (Qltb tw th) eqn:E1; destruct (Qltb th tw) eqn:E2;
  destruct (Qltb pxW pxH) eqn:E3; destruct (Qltb pxH pxW) eqn:E4; simpl;
  try reflexivity;
  fold pxW pxH;
  repeat match goal with
  | H : Qltb _ _ = true |- _ => apply Qltb_iff in H
  | H : Qltb _ _ = false |- _ => apply Qltb_false in H
  end;
  try (exfalso; lra);
  try (assert (Hl : tw <= th) by lra; specialize (M1 Hl));
  try (assert (Hr : th <= tw) by lra; specialize (M2 Hr));
  try (exfalso; lra);
  (rewrite A by lra; reflexivity).
Qed.

(** Under every orientation setting, the PNG canvas of a copy is the
    layout's effective slot of that copy converted to pixels at 300 DPI
    ([Math.round(cm / 2.54 * 300)]), also when both use different tests
    (the canvas compares rounded pixels, the layout compares centimetres). *)
Theorem pngCanvasSize_matches_layout (settings : PrintSettings) (img : ImageFile) :
  pngCanvasSize settings img =
  (mathRound (fst (fst (effectiveSlot settings img)) / 2.54 * 300),
   mathRound (snd (fst (effectiveSlot settings img)) / 2.54 * 300)).
Proof. apply pngCanvasSize_slot. Qed.

(** ** Where a rotated image lands *)

(** The canvas transform maps the centre of what is drawn to the centre of
    the usable rectangle [u] shifted by [(rh u - rw u) / 2] on both axes
    when the image is rotated, and to the centre of [u] otherwise, in both
    fit modes.  In cover mode the rotated draw fills exactly [u] shifted by
    that amount: the image leaves the usable area unless it is square. *)
Theorem rotated_draw_offset (fit : FitMode) (imgW imgH : Q) (rot : bool) (u : Rect) :
  fst (toCanvas rot u (rectCentre (snd (fitImage fit imgW imgH rot (rotateDraw rot u))))) ==
    fst (rectCentre u) + (if rot then (rh u - rw u) / 2 else 0) /\
  snd (toCanvas rot u (rectCentre (snd (fitImage fit imgW imgH rot (rotateDraw rot u))))) ==
    snd (rectCentre u) + (if rot then (rh u - rw u) / 2 else 0) /\
  (rot = true -> fit = Cover ->
   let d := snd (fitImage fit imgW imgH rot (rotateDraw rot u)) in
   let delta := (rh u - rw u) / 2 in
   fst (toCanvas rot u (rx d, ry d + rh d)) == rx u + delta /\
   snd (toCanvas rot u (rx d, ry d + rh d)) == ry u + delta /\
   fst (toCanvas rot u (rx d + rw d, ry d)) == rx u + rw u + delta /\
   snd (toCanvas rot u (rx d + rw d, ry d)) == ry u + rh u + delta).
Proof.
  destruct u as [X Y W H].
  unfold toCanvas, ctxQuarterTurn, rectCentre, rotateDraw, fitImage.
  destruct rot, fit;
  destruct (Qltb _ _); simpl; rewrite ?Qdiv2;
  repeat split; intros; try discriminate; simpl; rewrite ?Qdiv2; lra.
Qed.

Lemma rotated_draw_offset_witness :
  fst (toCanvas true (mkRect 0 0 1181 1772)
         (rx (snd (fitImage Cover 2000 1000 true (rotateDraw true (mkRect 0 0 1181 1772)))),
          ry (snd (fitImage Cover 2000 1000 true (rotateDraw true (mkRect 0 0 1181 1772)))) +
          rh (snd (fitImage Cover 2000 1000 true (rotateDraw true (mkRect 0 0 1181 1772))))))
  == 0 + (1772 - 1181) / 2.
Proof.
  destruct (rotated_draw_offset Cover 2000 1000 true (mkRect 0 0 1181 1772)) as [_ [_ H]].
  exact (proj1 (H eq_refl eq_refl)).
Defined.

(** ** [shouldRotate] under [auto] *)

Lemma shouldRotate_pos (sw sh iw ih : Q) :
  0 < sw -> 0 < sh -> 0 < iw -> 0 < ih ->
  shouldRotate sw sh iw ih = (Qltb sh sw && Qltb iw ih) || (Qltb sw sh && Qltb ih iw).
Proof.
  intros Hsw Hsh Hiw Hih. unfold shouldRotate.
  rewrite (Qltb_ext 1 (sw / sh) sh sw) by (apply one_lt_div; exact Hsh).
  rewrite (Qltb_ext (iw / ih) 1 iw ih) by (apply div_lt_one; exact Hih).
  rewrite (Qltb_ext (sw / sh) 1 sw sh) by (apply div_lt_one; exact Hsh).
  rewrite (Qltb_ext 1 (iw / ih) ih iw) by (apply one_lt_div; exact Hih).
  reflexivity.
Qed.

(** A slot that leans the same way as the image (or is square) never asks
    for a rotated draw. *)
Lemma shouldRotate_aligned (sw sh iw ih : Q) :
  0 < sw -> 0 < sh -> 0 < iw -> 0 < ih ->
  (ih < iw -> sh <= sw) -> (iw <= ih -> sw <= sh) ->
  shouldRotate sw sh iw ih = false.
Proof.
  intros Hsw Hsh Hiw Hih HL HP. rewrite shouldRotate_pos by assumption.
  destruct (Qltb sh sw) eqn:E1, (Qltb iw ih) eqn:E2, (Qltb sw sh) eqn:E3,
    (Qltb ih iw) eqn:E4; simpl; try reflexivity;
  repeat match goal with
  | H : Qltb _ _ = true |- _ => apply Qltb_iff in H
  | H : Qltb _ _ = false |- _ => apply Qltb_false in H
  end;
  exfalso;
  first [ specialize (HL ltac:(lra)); lra | specialize (HP ltac:(lra)); lra ].
Qed.

Lemma orientSlot_auto_aligned (tw th : Q) (img : ImageFile) :
  (height img < width img ->
     snd (fst (orientSlot OAuto tw th img)) <= fst (fst (orientSlot OAuto tw th img))) /\
  (width img <= height img ->
     fst (fst (orientSlot OAuto tw th img)) <= snd (fst (orientSlot OAuto tw th img))).
Proof.
  unfold orientSlot.
  destruct (Qltb (height img) (width img)) eqn:E1, (Qltb th tw) eqn:E2; simpl;
  repeat match goal with
  | H : Qltb _ _ = true |- _ => apply Qltb_iff in H
  | H : Qltb _ _ = false |- _ => apply Qltb_false in H
  end;
  split; intro; lra.
Qed.

Lemma orientSlot_pos (o : Orientation) (tw th : Q) (img : ImageFile) :
  0 < tw -> 0 < th ->
  0 < fst (fst (orientSlot o tw th img)) /\ 0 < snd (fst (orientSlot o tw th img)).
Proof.
  intros Hw Hh. unfold orientSlot.
  destruct o; repeat match goal with |- context [if ?b then _ else _] => destruct b end;
  simpl; split; assumption.
Qed.

(** Under [auto], with a positive target size and images of known size,
    [generatePDF] never draws a placed copy rotated: the layout already
    turned the slot the way the image leans. *)
Theorem generatePDF_auto_never_rotates (settings : PrintSettings)
  (images : list ImageFile) (p : Placed) :
  orientation settings = OAuto ->
  0 < fst (getTargetSize settings) -> 0 < snd (getTargetSize settings) ->
  In p (concat (calculateLayout settings images)) ->
  0 < width (pl_img p) -> 0 < height (pl_img p) ->
  shouldRotate (pl_w p) (pl_h p) (width (pl_img p)) (height (pl_img p)) = false.
Proof.
  intros Ho Htw Hth Hin Hw Hh.
  pose proof (calculateLayout_orient settings images p Hin) as E.
  rewrite Ho in E.
  pose proof (orientSlot_auto_aligned (fst (getTargetSize settings))
                (snd (getTargetSize settings)) (pl_img p)) as [HL HP].
  pose proof (orientSlot_pos OAuto (fst (getTargetSize settings))
                (snd (getTargetSize settings)) (pl_img p) Htw Hth) as [Pw Ph].
  rewrite <- E in HL, HP, Pw, Ph. simpl in HL, HP, Pw, Ph.
  apply shouldRotate_aligned; assumption.
Qed.

Lemma generatePDF_auto_never_rotates_witness :
  match calculateLayout defaultSettings [mkImageFile "a" 1 2000 1000] with
  | (p :: _) :: _ =>
      shouldRotate (pl_w p) (pl_h p) (width (pl_img p)) (height (pl_img p)) = false
  | _ => False
  end.
Proof.
  match eval vm_compute in (calculateLayout defaultSettings [mkImageFile "a" 1 2000 1000]) with
  | (?p :: ?r) :: ?rest =>
      change (shouldRotate (pl_w p) (pl_h p) (width (pl_img p)) (height (pl_img p)) = false);
      apply (generatePDF_auto_never_rotates defaultSettings [mkImageFile "a" 1 2000 1000] p);
      [ reflexivity | vm_compute; reflexivity | vm_compute; reflexivity
      | vm_compute; left; reflexivity | vm_compute; reflexivity
      | vm_compute; reflexivity ]
  end.
Defined.

(** Under [auto], with a canvas of positive size and an image of known
    size, [saveToPNG] never draws a copy rotated either, although its
    canvas is the rounded slot. *)
Theorem saveToPNG_auto_never_rotates (settings : PrintSettings) (img : ImageFile) :
  orientation settings = OAuto ->
  0 < fst (pngCanvasSize settings img) -> 0 < snd (pngCanvasSize settings img) ->
  0 < width img -> 0 < height img ->
  shouldRotate (fst (pngCanvasSize settings img)) (snd (pngCanvasSize settings img))
    (width img) (height img) = false.
Proof.
  intros Ho Hw Hh Hiw Hih.
  rewrite pngCanvasSize_slot in *. unfold effectiveSlot in *. rewrite Ho in *. simpl in *.
  destruct (orientSlot_auto_aligned (fst (getTargetSize settings))
              (snd (getTargetSize settings)) img) as [HL HP].
  apply shouldRotate_aligned; try assumption.
  - intro H. apply cmToPxRound_mono. apply HL. exact H.
  - intro H. apply cmToPxRound_mono. apply HP. exact H.
Qed.

Lemma saveToPNG_auto_never_rotates_witness :
  shouldRotate (fst (pngCanvasSize defaultSettings (mkImageFile "a" 1 2000 1000)))
    (snd (pngCanvasSize defaultSettings (mkImageFile "a" 1 2000 1000)))
    (width (mkImageFile "a" 1 2000 1000)) (height (mkImageFile "a" 1 2000 1000)) = false.
Proof.
  apply saveToPNG_auto_never_rotates; [reflexivity | ..]; vm_compute; reflexivity.
Defined.

(** ** Forced orientation *)

(** With [landscape] every placed slot and every PNG canvas is at least as
    wide as tall; with [portrait] at least as tall as wide. *)
Theorem forced_orientation_respected (settings : PrintSettings)
  (images : list ImageFile) (p : Placed) (img : ImageFile) :
  (orientation settings = OLandscape ->
     (In p (concat (calculateLayout settings images)) -> pl_h p <= pl_w p) /\
     snd (pngCanvasSize settings img) <= fst (pngCanvasSize settings img)) /\
  (orientation settings = OPortrait ->
     (In p (concat (calculateLayout settings images)) -> pl_w p <= pl_h p) /\
     fst (pngCanvasSize settings img) <= snd (pngCanvasSize settings img)).
Proof.
  assert (Hslot : forall i, orientation settings = OLandscape ->
            snd (fst (effectiveSlot settings i)) <= fst (fst (effectiveSlot settings i))).
  { intros i Ho. unfold effectiveSlot, orientSlot. rewrite Ho.
    destruct (Qltb (fst (getTargetSize settings)) (snd (getTargetSize settings))) eqn:E;
      simpl; [apply Qltb_iff in E | apply Qltb_false in E]; lra. }
  assert (Pslot : forall i, orientation settings = OPortrait ->
            fst (fst (effectiveSlot settings i)) <= snd (fst (effectiveSlot settings i))).
  { intros i Ho. unfold effectiveSlot, orientSlot. rewrite Ho.
    destruct (Qltb (snd (getTargetSize settings)) (fst (getTargetSize settings))) eqn:E;
      simpl; [apply Qltb_iff in E | apply Qltb_false in E]; lra. }
  split; intro Ho; split.
  - intro Hin. pose proof (Hslot (pl_img p) Ho) as H. unfold effectiveSlot in H.
    rewrite <- (calculateLayout_orient settings images p Hin) in H. exact H.
  - rewrite pngCanvasSize_slot. apply cmToPxRound_mono. apply Hslot. exact Ho.
  - intro Hin. pose proof (Pslot (pl_img p) Ho) as H. unfold effectiveSlot in H.
    rewrite <- (calculateLayout_orient settings images p Hin) in H. exact H.
  - rewrite pngCanvasSize_slot. apply cmToPxRound_mono. apply Pslot. exact Ho.
Qed.

Lemma forced_orientation_respected_witness :
  match calculateLayout portraitSettings [unknownImage "a"] with
  | (p :: _) :: _ =>
      pl_w p <= pl_h p /\
      fst (pngCanvasSize portraitSettings (unknownImage "a")) <=
        snd (pngCanvasSize portraitSettings (unknownImage "a"))
  | _ => False
  end.
Proof.
  match eval vm_compute in (calculateLayout portraitSettings [unknownImage "a"]) with
  | (?p :: ?r) :: ?rest =>
      change (pl_w p <= pl_h p /\
              fst (pngCanvasSize portraitSettings (unknownImage "a")) <=
                snd (pngCanvasSize portraitSettings (unknownImage "a")));
      destruct (forced_orientation_respected portraitSettings [unknownImage "a"] p
                  (unknownImage "a")) as [_ H];
      destruct (H eq_refl) as [H1 H2];
      exact (conj (H1 ltac:(vm_compute; left; reflexivity)) H2)
  end.
Defined.

(** ** Blank pages *)

Lemma slotFits_fan_out (settings : PrintSettings) (images : list ImageFile) :
  (forall img, In img images ->
     slotFits A4_WIDTH_CM A4_HEIGHT_CM (margin settings) (effectiveSlot settings img)) ->
  Forall (fun img => slotFits A4_WIDTH_CM A4_HEIGHT_CM (margin settings)
                       (effectiveSlot settings img)) (allItemsToPrint images).
Proof.
  intro Hfit. apply Forall_forall. intros img Himg. apply Hfit.
  unfold allItemsToPrint in Himg. apply in_flat_map in Himg.
  destruct Himg as [i [Hi Hr]]. apply repeat_spec in Hr. subst. exact Hi.
Qed.

Lemma layoutStep_noBlank pw ph m s o tw th st img :
  slotFits pw ph m (orientSlot o tw th img) ->
  Forall (fun pg : Page => pg <> []) (pages st) ->
  (currentImages st = [] -> currentX st = m /\ currentY st = m) ->
  Forall (fun pg : Page => pg <> []) (pages (layoutStep pw ph m s o tw th st img)) /\
  currentImages (layoutStep pw ph m s o tw th st img) <> [].
Proof.
  intros Hf Hp Hc. unfold layoutStep. revert Hf.
  destruct (orientSlot o tw th img) as [[w h] rot]. unfold slotFits. simpl.
  intros [Hw0 [Hw [Hh0 Hh]]].
  unfold placeItem, breakPage, wrapRow.
  destruct (currentImages st) as [|c cs] eqn:Ec.
  - destruct (Hc eq_refl) as [Hx Hy]. rewrite Hx.
    replace (Qltb (pw - m + 0.001) (m + w)) with false
      by (symmetry; apply Qltb_false; lra).
    simpl. rewrite Ec, Hy.
    replace (Qltb (ph - m + 0.001) (m + h)) with false
      by (symmetry; apply Qltb_false; lra).
    simpl. split; [exact Hp|].
    intro He; apply app_eq_nil in He; destruct He as [_ He]; discriminate He.
  - destruct (Qltb (pw - m + 0.001) (currentX st + w));
    simpl; destruct (Qltb (ph - m + 0.001) _); simpl; rewrite ?Ec;
    (split; [ first [ exact Hp
                    | apply Forall_app; split;
                      [exact Hp | apply Forall_cons; [discriminate | apply Forall_nil]] ]
            | intro He; first [ discriminate He
                              | apply app_eq_nil in He; destruct He as [_ He]; discriminate He ] ]).
Qed.

Lemma fold_layoutStep_noBlank pw ph m s o tw th l st :
  Forall (fun img => slotFits pw ph m (orientSlot o tw th img)) l ->
  Forall (fun pg : Page => pg <> []) (pages st) ->
  (currentImages st = [] -> currentX st = m /\ currentY st = m) ->
  Forall (fun pg : Page => pg <> []) (pages (fold_left (layoutStep pw ph m s o tw th) l st)) /\
  (currentImages (fold_left (layoutStep pw ph m s o tw th) l st) = [] ->
     currentX (fold_left (layoutStep pw ph m s o tw th) l st) = m /\
     currentY (fold_left (layoutStep pw ph m s o tw th) l st) = m).
Proof.
  revert st. induction l as [|img l IH]; intros st Hl Hp Hc; simpl; [split; assumption|].
  inversion Hl as [|x y Hi Hr]; subst.
  destruct (layoutStep_noBlank pw ph m s o tw th st img Hi Hp Hc) as [Hp' Hc'].
  apply IH; [exact Hr | exact Hp' | intro He; contradiction].
Qed.

Lemma length_le_concat {A : Type} (l : list (list A)) :
  Forall (fun x => x <> []) l -> (length l <= length (concat l))%nat.
Proof.
  induction 1 as [|x r Hx _ IH]; simpl; [lia|].
  rewrite length_app. destruct x; [contradiction|simpl; lia].
Qed.

(** When every copy's slot fits the printable area, the layout has no
    blank page (so the preview and the PDF have none), and there are at
    most as many pages as copies. *)
Theorem calculateLayout_no_blank_page (settings : PrintSettings) (images : list ImageFile) :
  (forall img, In img images ->
     slotFits A4_WIDTH_CM A4_HEIGHT_CM (margin settings) (effectiveSlot settings img)) ->
  Forall (fun pg => pg <> []) (calculateLayout settings images) /\
  (length (calculateLayout settings images) <= list_sum (map copies images))%nat.
Proof.
  intro Hfit. pose proof (slotFits_fan_out settings images Hfit) as Hall.
  assert (Hraw : Forall (fun pg : Page => pg <> [])
                   (packPages A4_WIDTH_CM A4_HEIGHT_CM settings images)).
  { unfold packPages.
    match goal with |- context [fold_left ?f ?l ?s0] =>
      pose proof (fold_layoutStep_noBlank A4_WIDTH_CM A4_HEIGHT_CM (margin settings)
        (spacing settings) (orientation settings) (fst (getTargetSize settings))
        (snd (getTargetSize settings)) l s0 Hall (Forall_nil _)
        (fun _ => conj eq_refl eq_refl)) as [H _];
      destruct (fold_left f l s0) as [pgs cur cx cy rh] end.
    simpl in *. destruct (Nat.ltb 0 (length cur)) eqn:E.
    - apply Forall_app. split; [exact H|]. constructor; [|constructor].
      intro Hc. rewrite Hc in E. discriminate E.
    - exact H. }
  assert (Hpg : Forall (fun pg => pg <> []) (calculateLayout settings images)).
  { unfold calculateLayout. apply Forall_map. eapply Forall_impl; [|exact Hraw].
    intros pg Hne. rewrite centerPage_nonempty by exact Hne.
    destruct pg; [contradiction|discriminate]. }
  split; [exact Hpg|].
  eapply Nat.le_trans; [apply length_le_concat; exact Hpg|].
  rewrite <- (length_map pl_img), calculateLayout_images.
  unfold allItemsToPrint. rewrite length_fan_out. apply Nat.le_refl.
Qed.

Lemma calculateLayout_no_blank_page_witness :
  Forall (fun pg => pg <> []) (calculateLayout defaultSettings scenario1Images) /\
  (length (calculateLayout defaultSettings scenario1Images) <=
     list_sum (map copies scenario1Images))%nat.
Proof.
  apply calculateLayout_no_blank_page.
  intros img [<-|[<-|[<-|[]]]]; unfold slotFits;
    repeat split; apply Qle_bool_imp_le; vm_compute; reflexivity.
Defined.




